(** * ReferencedState (libredex/ReferencedState.h)

    A shallow embedding of the [ReferencedState] class of Redex: the
    per-element record of reference flags, ProGuard keep flags, keep
    modifiers and the keep-rule counter, with its predicates
    ([can_delete], [can_rename], [is_blanket_names_kept], ...), its
    mutators and its user-defined copy assignment.

    Objects live in a store indexed by address, so that [operator=]
    can compare [this] with [&other] the way the C++ does. *)

From stdpp Require Import base tactics option list numbers gmap fin_maps.

Local Open Scope Z_scope.

(** ** The record *)

(** [unsigned int] is 32 bits wide on every target Redex is built for;
    arithmetic on it wraps modulo [UINT_MODULUS]. *)
Definition UINT_BITS : Z := 32.
Definition UINT_MODULUS : Z := 2 ^ UINT_BITS.

(** The data members, in declaration order.  [m_keep_count] is the value
    held by the [std::atomic<unsigned int>] cell. *)
Record ReferencedState : Type := mkReferencedState {
  m_bytype : bool;
  m_bystring : bool;
  m_computed : bool;
  m_keep : bool;
  m_assumenosideeffects : bool;
  m_blanket_keepnames : bool;
  m_whyareyoukeeping : bool;
  m_set_allowshrinking : bool;
  m_unset_allowshrinking : bool;
  m_set_allowobfuscation : bool;
  m_unset_allowobfuscation : bool;
  m_keep_name : bool;
  m_keep_count : Z
}.

(** [ReferencedState() = default]: the default member initialisers. *)
Definition fresh : ReferencedState :=
  {| m_bytype := false;
     m_bystring := false;
     m_computed := true;
     m_keep := false;
     m_assumenosideeffects := false;
     m_blanket_keepnames := false;
     m_whyareyoukeeping := false;
     m_set_allowshrinking := false;
     m_unset_allowshrinking := false;
     m_set_allowobfuscation := false;
     m_unset_allowobfuscation := false;
     m_keep_name := false;
     m_keep_count := 0 |}.

(** ** Const member functions *)

Definition keep (s : ReferencedState) : bool := m_keep s.

Definition allowshrinking (s : ReferencedState) : bool :=
  negb (m_unset_allowshrinking s) && m_set_allowshrinking s.

Definition allowobfuscation (s : ReferencedState) : bool :=
  negb (m_unset_allowobfuscation s) && m_set_allowobfuscation s.

Definition assumenosideeffects (s : ReferencedState) : bool :=
  m_assumenosideeffects s.

Definition can_delete (s : ReferencedState) : bool :=
  negb (m_bytype s) && (negb (m_keep s) || allowshrinking s).

Definition can_rename (s : ReferencedState) : bool :=
  negb (m_keep_name s) && negb (m_bystring s)
  && (negb (m_keep s) || allowobfuscation s)
  && negb (allowshrinking s).

Definition is_blanket_names_kept (s : ReferencedState) : bool :=
  m_blanket_keepnames s && (m_keep_count s =? 1).

Definition report_whyareyoukeeping (s : ReferencedState) : bool :=
  m_whyareyoukeeping s.

Definition is_referenced_by_string (s : ReferencedState) : bool := m_bystring s.

Definition is_referenced_by_type (s : ReferencedState) : bool := m_bytype s.

(** ** Member assignment

    [put_f v s] is the record [s] after the assignment [f = v]; every
    other member keeps its value. *)

Definition put_m_bytype (v : bool) (s : ReferencedState) : ReferencedState :=
  let '(mkReferencedState _ bs cp kp ns bk wy ss us so uo kn kc) := s in
  mkReferencedState v bs cp kp ns bk wy ss us so uo kn kc.

Definition put_m_bystring (v : bool) (s : ReferencedState) : ReferencedState :=
  let '(mkReferencedState bt _ cp kp ns bk wy ss us so uo kn kc) := s in
  mkReferencedState bt v cp kp ns bk wy ss us so uo kn kc.

Definition put_m_computed (v : bool) (s : ReferencedState) : ReferencedState :=
  let '(mkReferencedState bt bs _ kp ns bk wy ss us so uo kn kc) := s in
  mkReferencedState bt bs v kp ns bk wy ss us so uo kn kc.

Definition put_m_keep (v : bool) (s : ReferencedState) : ReferencedState :=
  let '(mkReferencedState bt bs cp _ ns bk wy ss us so uo kn kc) := s in
  mkReferencedState bt bs cp v ns bk wy ss us so uo kn kc.

Definition put_m_assumenosideeffects (v : bool) (s : ReferencedState) : ReferencedState :=
  let '(mkReferencedState bt bs cp kp _ bk wy ss us so uo kn kc) := s in
  mkReferencedState bt bs cp kp v bk wy ss us so uo kn kc.

Definition put_m_blanket_keepnames (v : bool) (s : ReferencedState) : ReferencedState :=
  let '(mkReferencedState bt bs cp kp ns _ wy ss us so uo kn kc) := s in
  mkReferencedState bt bs cp kp ns v wy ss us so uo kn kc.

Definition put_m_whyareyoukeeping (v : bool) (s : ReferencedState) : ReferencedState :=
  let '(mkReferencedState bt bs cp kp ns bk _ ss us so uo kn kc) := s in
  mkReferencedState bt bs cp kp ns bk v ss us so uo kn kc.

Definition put_m_set_allowshrinking (v : bool) (s : ReferencedState) : ReferencedState :=
  let '(mkReferencedState bt bs cp kp ns bk wy _ us so uo kn kc) := s in
  mkReferencedState bt bs cp kp ns bk wy v us so uo kn kc.

Definition put_m_unset_allowshrinking (v : bool) (s : ReferencedState) : ReferencedState :=
  let '(mkReferencedState bt bs cp kp ns bk wy ss _ so uo kn kc) := s in
  mkReferencedState bt bs cp kp ns bk wy ss v so uo kn kc.

Definition put_m_set_allowobfuscation (v : bool) (s : ReferencedState) : ReferencedState :=
  let '(mkReferencedState bt bs cp kp ns bk wy ss us _ uo kn kc) := s in
  mkReferencedState bt bs cp kp ns bk wy ss us v uo kn kc.

Definition put_m_unset_allowobfuscation (v : bool) (s : ReferencedState) : ReferencedState :=
  let '(mkReferencedState bt bs cp kp ns bk wy ss us so _ kn kc) := s in
  mkReferencedState bt bs cp kp ns bk wy ss us so v kn kc.

Definition put_m_keep_name (v : bool) (s : ReferencedState) : ReferencedState :=
  let '(mkReferencedState bt bs cp kp ns bk wy ss us so uo _ kc) := s in
  mkReferencedState bt bs cp kp ns bk wy ss us so uo v kc.

Definition put_m_keep_count (v : Z) (s : ReferencedState) : ReferencedState :=
  let '(mkReferencedState bt bs cp kp ns bk wy ss us so uo kn _) := s in
  mkReferencedState bt bs cp kp ns bk wy ss us so uo kn v.

(** ** Mutators

    Each one returns the record after the call. *)

(** [m_bytype = m_bystring = true; m_computed = m_computed && from_code;] *)
Definition ref_by_string (from_code : bool) (s : ReferencedState) : ReferencedState :=
  let s := put_m_bystring true s in
  let s := put_m_bytype true s in
  put_m_computed (m_computed s && from_code) s.

Definition ref_by_type (s : ReferencedState) : ReferencedState :=
  put_m_bytype true s.

(** [if (m_computed) { m_bytype = m_bystring = false; }] *)
Definition clear_if_compute (s : ReferencedState) : ReferencedState :=
  if m_computed s then
    let s := put_m_bystring false s in
    put_m_bytype false s
  else s.

Definition set_keep (s : ReferencedState) : ReferencedState :=
  put_m_keep true s.

Definition set_keep_name (s : ReferencedState) : ReferencedState :=
  put_m_keep_name true s.

Definition set_allowshrinking (s : ReferencedState) : ReferencedState :=
  put_m_set_allowshrinking true s.

Definition unset_allowshrinking (s : ReferencedState) : ReferencedState :=
  put_m_unset_allowshrinking true s.

Definition set_allowobfuscation (s : ReferencedState) : ReferencedState :=
  put_m_set_allowobfuscation true s.

Definition unset_allowobfuscation (s : ReferencedState) : ReferencedState :=
  put_m_unset_allowobfuscation true s.

Definition set_assumenosideeffects (s : ReferencedState) : ReferencedState :=
  put_m_assumenosideeffects true s.

Definition set_blanket_keepnames (s : ReferencedState) : ReferencedState :=
  put_m_blanket_keepnames true s.

(** [m_keep_count++] on an [unsigned int]: the successor modulo 2^32. *)
Definition increment_keep_count (s : ReferencedState) : ReferencedState :=
  put_m_keep_count ((m_keep_count s + 1) mod UINT_MODULUS) s.

Definition set_whyareyoukeeping (s : ReferencedState) : ReferencedState :=
  put_m_whyareyoukeeping true s.

(** The body of [operator=] under [this != &other]: thirteen member
    assignments in source order, the last one storing
    [other.m_keep_count.load()]. *)
Definition assign_members (this other : ReferencedState) : ReferencedState :=
  let this := put_m_bytype (m_bytype other) this in
  let this := put_m_bystring (m_bystring other) this in
  let this := put_m_computed (m_computed other) this in
  let this := put_m_keep (m_keep other) this in
  let this := put_m_assumenosideeffects (m_assumenosideeffects other) this in
  let this := put_m_blanket_keepnames (m_blanket_keepnames other) this in
  let this := put_m_whyareyoukeeping (m_whyareyoukeeping other) this in
  let this := put_m_set_allowshrinking (m_set_allowshrinking other) this in
  let this := put_m_unset_allowshrinking (m_unset_allowshrinking other) this in
  let this := put_m_set_allowobfuscation (m_set_allowobfuscation other) this in
  let this := put_m_unset_allowobfuscation (m_unset_allowobfuscation other) this in
  let this := put_m_keep_name (m_keep_name other) this in
  put_m_keep_count (m_keep_count other) this.

(** ** Call sequences on one record *)

(** The non-const member functions other than [operator=]. *)
Inductive method : Type :=
  | RefByString (from_code : bool)
  | RefByType
  | ClearIfCompute
  | SetKeep
  | SetKeepName
  | SetAllowshrinking
  | UnsetAllowshrinking
  | SetAllowobfuscation
  | UnsetAllowobfuscation
  | SetAssumenosideeffects
  | SetBlanketKeepnames
  | IncrementKeepCount
  | SetWhyareyoukeeping.

#[global] Instance method_eq_dec : EqDecision method.
Proof. solve_decision. Defined.

Definition call (m : method) (s : ReferencedState) : ReferencedState :=
  match m with
  | RefByString from_code => ref_by_string from_code s
  | RefByType => ref_by_type s
  | ClearIfCompute => clear_if_compute s
  | SetKeep => set_keep s
  | SetKeepName => set_keep_name s
  | SetAllowshrinking => set_allowshrinking s
  | UnsetAllowshrinking => unset_allowshrinking s
  | SetAllowobfuscation => set_allowobfuscation s
  | UnsetAllowobfuscation => unset_allowobfuscation s
  | SetAssumenosideeffects => set_assumenosideeffects s
  | SetBlanketKeepnames => set_blanket_keepnames s
  | IncrementKeepCount => increment_keep_count s
  | SetWhyareyoukeeping => set_whyareyoukeeping s
  end.

(** The calls of [ms] made one after the other, first call first. *)
Fixpoint run (ms : list method) (s : ReferencedState) : ReferencedState :=
  match ms with
  | [] => s
  | m :: ms' => run ms' (call m s)
  end.

(** How many calls of [ms] are [increment_keep_count()]. *)
Definition increments (ms : list method) : nat :=
  length (filter (λ m, m = IncrementKeepCount) ms).

(** The keep-modifier setters, as a sub-alphabet of [method]. *)
Inductive modifier : Type :=
  | SetShrink
  | UnsetShrink
  | SetObf
  | UnsetObf.

#[global] Instance modifier_eq_dec : EqDecision modifier.
Proof. solve_decision. Defined.

Definition modifier_method (k : modifier) : method :=
  match k with
  | SetShrink => SetAllowshrinking
  | UnsetShrink => UnsetAllowshrinking
  | SetObf => SetAllowobfuscation
  | UnsetObf => UnsetAllowobfuscation
  end.

Definition apply_modifiers (ks : list modifier) (s : ReferencedState) : ReferencedState :=
  run (modifier_method <$> ks) s.

(** ** Objects in a store

    Records are held at addresses; a statement either default-constructs
    a record at an unused address, calls a mutator on the record at an
    address, or copy-assigns between two addresses.  A statement on an
    address that holds no record has no meaning ([None]). *)

Abbreviation addr := positive.
Abbreviation store := (gmap positive ReferencedState).

(** [ReferencedState& operator=(const ReferencedState& other)], with
    [this] and [&other] as addresses: the members are copied only when
    the two addresses differ. *)
Definition operator_assign (this other : addr) (σ : store) : option store :=
  t ← σ !! this;
  o ← σ !! other;
  Some (if decide (this ≠ other) then <[this := assign_members t o]> σ else σ).

Definition at_addr (a : addr) (f : ReferencedState → ReferencedState) (σ : store)
  : option store :=
  s ← σ !! a;
  Some (<[a := f s]> σ).

Inductive stmt : Type :=
  | Construct (a : addr)
  | Call (a : addr) (m : method)
  | Assign (dst src : addr).

Definition exec (c : stmt) (σ : store) : option store :=
  match c with
  | Construct a =>
      match σ !! a with
      | None => Some (<[a := fresh]> σ)
      | Some _ => None
      end
  | Call a m => at_addr a (call m) σ
  | Assign dst src => operator_assign dst src σ
  end.

Fixpoint exec_all (p : list stmt) (σ : store) : option store :=
  match p with
  | [] => Some σ
  | c :: p' => σ' ← exec c σ; exec_all p' σ'
  end.

(** [n] calls of [increment_keep_count()] on the record at [a]. *)
Definition increment_n (a : addr) (n : nat) : list stmt :=
  replicate n (Call a IncrementKeepCount).

(** Invariant I1 of one record, and of every record of a store. *)
Definition string_implies_type (s : ReferencedState) : Prop :=
  m_bystring s = true → m_bytype s = true.

#[global] Instance string_implies_type_dec (s : ReferencedState) :
  Decision (string_implies_type s).
Proof. unfold string_implies_type. apply _. Defined.

Definition store_string_implies_type (σ : store) : Prop :=
  ∀ a s, σ !! a = Some s → string_implies_type s.

(** ** The two writers

    The reference analysis calls [ref_by_string], [ref_by_type] and
    [clear_if_compute] and works on the first three members; the
    ProGuard keep rules call the other mutators and work on the rest. *)

Definition is_reference_method (m : method) : bool :=
  match m with
  | RefByString _ | RefByType | ClearIfCompute => true
  | _ => false
  end.

(** The calls that record a reference found in code: [ref_by_type()]
    and [ref_by_string(true)]. *)
Definition is_code_reference (m : method) : bool :=
  match m with
  | RefByString true | RefByType => true
  | _ => false
  end.

Definition reference_members (s : ReferencedState) : bool * bool * bool :=
  (m_bytype s, m_bystring s, m_computed s).

Definition keep_members (s : ReferencedState)
  : bool * bool * bool * bool * bool * bool * bool * bool * bool * Z :=
  (m_keep s, m_assumenosideeffects s, m_blanket_keepnames s,
   m_whyareyoukeeping s, m_set_allowshrinking s, m_unset_allowshrinking s,
   m_set_allowobfuscation s, m_unset_allowobfuscation s, m_keep_name s,
   m_keep_count s).

(** The values an [unsigned int] can hold. *)
Definition keep_count_in_range (s : ReferencedState) : Prop :=
  0 ≤ m_keep_count s < UINT_MODULUS.

#[global] Instance keep_count_in_range_dec (s : ReferencedState) :
  Decision (keep_count_in_range s).
Proof. unfold keep_count_in_range. apply _. Defined.

Definition store_keep_count_in_range (σ : store) : Prop :=
  ∀ a s, σ !! a = Some s → keep_count_in_range s.

(** * Properties *)

(** ** Proof tools *)

Lemma bool_eq_true_false (b : bool) : b = false ↔ b ≠ true.
Proof. destruct b; split; congruence. Qed.

(** Splits a record into its members and the boolean members into cases. *)
Ltac open_record s :=
  destruct s as [bt bs cp kp ns bk wy ss us so uo kn kc].

(** Case analysis on the boolean members the goal mentions. *)
Ltac flags s :=
  unfold can_delete, can_rename, allowshrinking, allowobfuscation,
    set_allowshrinking;
  open_record s; cbn;
  repeat match goal with
         | b : bool |- ?G => match G with context [b] => destruct b end
         end;
  cbn; intuition congruence.

(** ** The predicates *)

Lemma allowshrinking_true (s : ReferencedState) :
  allowshrinking s = true ↔
  m_set_allowshrinking s = true ∧ m_unset_allowshrinking s = false.
Proof. flags s. Qed.

Lemma allowobfuscation_true (s : ReferencedState) :
  allowobfuscation s = true ↔
  m_set_allowobfuscation s = true ∧ m_unset_allowobfuscation s = false.
Proof. flags s. Qed.

(** C1. For every record, [can_delete()] is true exactly when
    [m_bytype] is false and ([m_keep] is false or [allowshrinking()] is
    true), where [allowshrinking()] is the set bit without the unset
    bit; so it is false whenever [m_bytype] is true, and true when
    [m_bytype] is false and either [m_keep] is false or the set bit is
    on and the unset bit is off. *)
Theorem can_delete_spec (s : ReferencedState) :
  (can_delete s = true ↔
     m_bytype s = false ∧ (m_keep s = false ∨ allowshrinking s = true))
  ∧ (allowshrinking s = true ↔
     m_set_allowshrinking s = true ∧ m_unset_allowshrinking s = false)
  ∧ (m_bytype s = true → can_delete s = false)
  ∧ (m_bytype s = false →
     m_keep s = false
     ∨ (m_set_allowshrinking s = true ∧ m_unset_allowshrinking s = false) →
     can_delete s = true).
Proof. flags s. Qed.

Lemma can_delete_spec_witness :
  can_delete (set_allowshrinking (set_keep fresh)) = true
  ∧ can_delete (ref_by_type fresh) = false.
Proof.
  split.
  - destruct (can_delete_spec (set_allowshrinking (set_keep fresh)))
      as (_ & _ & _ & H).
    apply H; [reflexivity | right; split; reflexivity].
  - destruct (can_delete_spec (ref_by_type fresh)) as (_ & _ & H & _).
    apply H; reflexivity.
Defined.

(** C2. For every record, [can_rename()] is true exactly when
    [m_keep_name] and [m_bystring] are false, ([m_keep] is false or
    [allowobfuscation()] is true) and [allowshrinking()] is false.  A
    record with [m_keep_name], [m_bystring], [m_keep] and the unset bit
    of shrinking all false can be renamed while [allowshrinking()] is
    false, and no longer after [set_allowshrinking()], whatever the
    obfuscation bits are. *)
Theorem can_rename_spec (s : ReferencedState) :
  (can_rename s = true ↔
     m_keep_name s = false ∧ m_bystring s = false
     ∧ (m_keep s = false ∨ allowobfuscation s = true)
     ∧ allowshrinking s = false)
  ∧ (allowobfuscation s = true ↔
     m_set_allowobfuscation s = true ∧ m_unset_allowobfuscation s = false)
  ∧ (m_keep_name s = false → m_bystring s = false → m_keep s = false →
     allowshrinking s = false → can_rename s = true)
  ∧ (m_keep_name s = false → m_bystring s = false → m_keep s = false →
     m_unset_allowshrinking s = false →
     allowshrinking (set_allowshrinking s) = true
     ∧ can_rename (set_allowshrinking s) = false).
Proof. flags s. Qed.

Lemma can_rename_spec_witness :
  can_rename (set_allowobfuscation fresh) = true
  ∧ can_rename (set_allowshrinking (set_allowobfuscation fresh)) = false.
Proof.
  destruct (can_rename_spec (set_allowobfuscation fresh)) as (_ & _ & H1 & H2).
  split.
  - apply H1; reflexivity.
  - apply H2; reflexivity.
Defined.

(** C10. A default-constructed record has every flag false, [m_computed]
    true and the counter at 0, and reports [can_delete()] and
    [can_rename()] both true. *)
Theorem fresh_can_delete_and_rename :
  fresh = mkReferencedState false false true false false false false
                            false false false false false 0
  ∧ can_delete fresh = true
  ∧ can_rename fresh = true.
Proof. repeat split. Qed.

(** ** Call sequences *)

Lemma run_app (ms1 ms2 : list method) (s : ReferencedState) :
  run (ms1 ++ ms2) s = run ms2 (run ms1 s).
Proof. revert s; induction ms1 as [|m ms1 IH]; intros s; cbn; [done | apply IH]. Qed.

Lemma bool_decide_elem_of_cons `{EqDecision A} (x y : A) (l : list A) :
  bool_decide (x ∈ y :: l) = bool_decide (x = y) || bool_decide (x ∈ l).
Proof.
  rewrite <- bool_decide_or. apply bool_decide_ext, elem_of_cons.
Qed.

(** A member that one method sets to true and no method clears is, after
    a call sequence, true exactly when it was true before or that method
    is among the calls. *)
Section set_once.
Variable member : ReferencedState → bool.
Variable setter : method.
Hypothesis call_member :
  ∀ m s, member (call m s) = member s || bool_decide (setter = m).

Lemma run_set_once (ms : list method) (s : ReferencedState) :
  member (run ms s) = member s || bool_decide (setter ∈ ms).
Proof using call_member.
  revert s; induction ms as [|m ms IH]; intros s; cbn [run].
  - rewrite bool_decide_eq_false_2 by apply not_elem_of_nil.
    by rewrite orb_false_r.
  - rewrite IH, call_member, bool_decide_elem_of_cons. by rewrite orb_assoc.
Qed.
End set_once.

Ltac by_method m s :=
  destruct m; open_record s; unfold call, clear_if_compute; cbn;
  try match goal with
      | c : bool |- context [if ?b then _ else _] => is_var b; destruct b; cbn
      end;
  rewrite ?orb_false_r, ?orb_true_r; reflexivity.

Lemma run_m_set_allowshrinking ms s :
  m_set_allowshrinking (run ms s)
  = m_set_allowshrinking s || bool_decide (SetAllowshrinking ∈ ms).
Proof. apply run_set_once. intros m s'. by_method m s'. Qed.

Lemma run_m_unset_allowshrinking ms s :
  m_unset_allowshrinking (run ms s)
  = m_unset_allowshrinking s || bool_decide (UnsetAllowshrinking ∈ ms).
Proof. apply run_set_once. intros m s'. by_method m s'. Qed.

Lemma run_m_set_allowobfuscation ms s :
  m_set_allowobfuscation (run ms s)
  = m_set_allowobfuscation s || bool_decide (SetAllowobfuscation ∈ ms).
Proof. apply run_set_once. intros m s'. by_method m s'. Qed.

Lemma run_m_unset_allowobfuscation ms s :
  m_unset_allowobfuscation (run ms s)
  = m_unset_allowobfuscation s || bool_decide (UnsetAllowobfuscation ∈ ms).
Proof. apply run_set_once. intros m s'. by_method m s'. Qed.

Lemma run_m_blanket_keepnames ms s :
  m_blanket_keepnames (run ms s)
  = m_blanket_keepnames s || bool_decide (SetBlanketKeepnames ∈ ms).
Proof. apply run_set_once. intros m s'. by_method m s'. Qed.

Lemma run_m_keep ms s :
  m_keep (run ms s) = m_keep s || bool_decide (SetKeep ∈ ms).
Proof. apply run_set_once. intros m s'. by_method m s'. Qed.

(** The modifier predicates after any call sequence on a fresh record,
    whatever other mutators are called in between. *)
Lemma allowshrinking_run_fresh (ms : list method) :
  allowshrinking (run ms fresh) = true ↔
  SetAllowshrinking ∈ ms ∧ UnsetAllowshrinking ∉ ms.
Proof.
  rewrite allowshrinking_true.
  rewrite run_m_set_allowshrinking, run_m_unset_allowshrinking; cbn.
  by rewrite bool_decide_eq_true, bool_eq_true_false, bool_decide_eq_true.
Qed.

Lemma allowobfuscation_run_fresh (ms : list method) :
  allowobfuscation (run ms fresh) = true ↔
  SetAllowobfuscation ∈ ms ∧ UnsetAllowobfuscation ∉ ms.
Proof.
  rewrite allowobfuscation_true.
  rewrite run_m_set_allowobfuscation, run_m_unset_allowobfuscation; cbn.
  by rewrite bool_decide_eq_true, bool_eq_true_false, bool_decide_eq_true.
Qed.

Lemma keep_run_fresh (ms : list method) :
  keep (run ms fresh) = true ↔ SetKeep ∈ ms.
Proof. unfold keep. rewrite run_m_keep; cbn. apply bool_decide_eq_true. Qed.

(** ** Keep modifiers *)

(** A batch of modifier calls only turns modifier bits on: each of the
    four bits ends up on when it was on or its setter is in the batch,
    and no other member moves. *)
Lemma apply_modifiers_members (ks : list modifier) (s : ReferencedState) :
  apply_modifiers ks s =
  put_m_set_allowshrinking
    (m_set_allowshrinking s || bool_decide (SetShrink ∈ ks))
    (put_m_unset_allowshrinking
       (m_unset_allowshrinking s || bool_decide (UnsetShrink ∈ ks))
       (put_m_set_allowobfuscation
          (m_set_allowobfuscation s || bool_decide (SetObf ∈ ks))
          (put_m_unset_allowobfuscation
             (m_unset_allowobfuscation s || bool_decide (UnsetObf ∈ ks)) s))).
Proof.
  unfold apply_modifiers.
  revert s; induction ks as [|k ks IH]; intros s.
  - open_record s; cbn. by rewrite !orb_false_r.
  - cbn [fmap list_fmap run]. rewrite IH, !bool_decide_elem_of_cons.
    destruct k; open_record s; cbn; by rewrite ?orb_false_r, ?orb_true_r.
Qed.

Lemma apply_modifiers_same_calls (ks ks' : list modifier) (s : ReferencedState) :
  (∀ k, k ∈ ks ↔ k ∈ ks') → apply_modifiers ks s = apply_modifiers ks' s.
Proof.
  intros Hsame. rewrite !apply_modifiers_members.
  by rewrite !(bool_decide_ext _ _ (Hsame _)).
Qed.

(** C3. Applied to a fresh record, a sequence of modifier calls (in any
    order, with any repetitions) ends with [allowshrinking()] true
    exactly when [set_allowshrinking()] is in the sequence and
    [unset_allowshrinking()] is not, and likewise for the obfuscation
    pair.  From any record, the outcome depends only on which calls
    occur: two sequences with the same calls give the same record, so
    merging batches of calls is commutative, associative and idempotent;
    and once the unset call occurs the predicate is false. *)
Theorem modifier_pairs_merge (ks : list modifier) :
  (allowshrinking (apply_modifiers ks fresh) = true ↔
     SetShrink ∈ ks ∧ UnsetShrink ∉ ks)
  ∧ (allowobfuscation (apply_modifiers ks fresh) = true ↔
     SetObf ∈ ks ∧ UnsetObf ∉ ks)
  ∧ (∀ ks' s, (∀ k, k ∈ ks ↔ k ∈ ks') →
       apply_modifiers ks s = apply_modifiers ks' s)
  ∧ (∀ ks' s, apply_modifiers (ks ++ ks') s = apply_modifiers (ks' ++ ks) s)
  ∧ (∀ ks' ks'' s, apply_modifiers ((ks ++ ks') ++ ks'') s
                   = apply_modifiers (ks ++ (ks' ++ ks'')) s)
  ∧ (∀ s, apply_modifiers (ks ++ ks) s = apply_modifiers ks s)
  ∧ (∀ s, UnsetShrink ∈ ks → allowshrinking (apply_modifiers ks s) = false)
  ∧ (∀ s, UnsetObf ∈ ks → allowobfuscation (apply_modifiers ks s) = false).
Proof.
  split_and!.
  - rewrite allowshrinking_true, apply_modifiers_members; cbn.
    rewrite bool_decide_eq_true, bool_eq_true_false, bool_decide_eq_true. done.
  - rewrite allowobfuscation_true, apply_modifiers_members; cbn.
    rewrite bool_decide_eq_true, bool_eq_true_false, bool_decide_eq_true. done.
  - intros ks' s. apply apply_modifiers_same_calls.
  - intros ks' s. apply apply_modifiers_same_calls.
    intros k. rewrite !elem_of_app. tauto.
  - intros ks' ks'' s. by rewrite app_assoc.
  - intros s. apply apply_modifiers_same_calls.
    intros k. rewrite elem_of_app. tauto.
  - intros s Hin. rewrite apply_modifiers_members.
    open_record s; cbn. rewrite (bool_decide_eq_true_2 _ Hin).
    by rewrite orb_true_r.
  - intros s Hin. rewrite apply_modifiers_members.
    open_record s; cbn. rewrite (bool_decide_eq_true_2 _ Hin).
    by rewrite orb_true_r.
Qed.

Lemma modifier_pairs_merge_witness :
  apply_modifiers [SetShrink; UnsetShrink; SetShrink] fresh
  = apply_modifiers [UnsetShrink; SetShrink] fresh
  ∧ allowshrinking (apply_modifiers [SetShrink; UnsetShrink; SetShrink] fresh)
    = false.
Proof.
  destruct (modifier_pairs_merge [SetShrink; UnsetShrink; SetShrink])
    as (_ & _ & Hsame & _ & _ & _ & Hunset & _).
  split.
  - apply Hsame. intros k. rewrite !elem_of_cons, elem_of_nil. tauto.
  - apply Hunset. rewrite !elem_of_cons. tauto.
Defined.

(** ** Blanket keepnames *)

(** C9. [set_blanket_keepnames()] assigns [m_blanket_keepnames] and
    nothing else, so [keep()] is what it was; on a fresh record,
    [set_blanket_keepnames()] followed by one [increment_keep_count()]
    leaves [is_blanket_names_kept()] true while [keep()] is false and
    [can_delete()] is true. *)
Theorem blanket_keepnames_without_keep :
  (∀ s, set_blanket_keepnames s =
        mkReferencedState
          (m_bytype s) (m_bystring s) (m_computed s) (m_keep s)
          (m_assumenosideeffects s) true (m_whyareyoukeeping s)
          (m_set_allowshrinking s) (m_unset_allowshrinking s)
          (m_set_allowobfuscation s) (m_unset_allowobfuscation s)
          (m_keep_name s) (m_keep_count s))
  ∧ (∀ s, keep (set_blanket_keepnames s) = keep s)
  ∧ is_blanket_names_kept (run [SetBlanketKeepnames; IncrementKeepCount] fresh)
    = true
  ∧ keep (run [SetBlanketKeepnames; IncrementKeepCount] fresh) = false
  ∧ can_delete (run [SetBlanketKeepnames; IncrementKeepCount] fresh) = true.
Proof.
  split_and!; try reflexivity; intros s; by open_record s.
Qed.

(** ** Copy assignment *)

(** After the thirteen member assignments nothing of the old [this] is
    left: the record is [other], member by member. *)
Lemma assign_members_other (this other : ReferencedState) :
  assign_members this other = other.
Proof. by destruct this, other. Qed.

Lemma operator_assign_self (a : addr) (σ : store) (s : ReferencedState) :
  σ !! a = Some s → operator_assign a a σ = Some σ.
Proof.
  intros Ha. unfold operator_assign. rewrite Ha; cbn.
  by rewrite decide_False by (intros Hne; by apply Hne).
Qed.

Lemma operator_assign_distinct (this other : addr) (σ : store)
    (t o : ReferencedState) :
  this ≠ other → σ !! this = Some t → σ !! other = Some o →
  operator_assign this other σ = Some (<[this := o]> σ).
Proof.
  intros Hne Ht Ho. unfold operator_assign. rewrite Ht, Ho; cbn.
  by rewrite decide_True, assign_members_other by done.
Qed.

(** ** The computed flag *)

Lemma call_m_computed (m : method) (s : ReferencedState) :
  m_computed (call m s)
  = m_computed s && negb (bool_decide (RefByString false = m)).
Proof.
  destruct m as [[]| | | | | | | | | | | |]; open_record s;
    unfold call, clear_if_compute; cbn; destruct cp; reflexivity.
Qed.

Lemma run_m_computed (ms : list method) (s : ReferencedState) :
  m_computed (run ms s)
  = m_computed s && negb (bool_decide (RefByString false ∈ ms)).
Proof.
  revert s; induction ms as [|m ms IH]; intros s; cbn [run].
  - rewrite bool_decide_eq_false_2 by apply not_elem_of_nil.
    by rewrite andb_true_r.
  - rewrite IH, call_m_computed, bool_decide_elem_of_cons, negb_orb.
    by rewrite andb_assoc.
Qed.

(** C4, as the code has it.  Over every sequence of mutator calls
    [m_computed] never goes from false to true:
    [ref_by_string(false)] sets it to false, [ref_by_string(true)] and
    every other mutator leave it as it is, so after a call sequence it
    is true exactly when it was true before and no [ref_by_string(false)]
    occurred, and once false it is false after any further calls.  Copy
    assignment is the exception: it overwrites [m_computed] with the
    source's value. *)
Theorem computed_clear_only :
  (∀ s, m_computed (ref_by_string false s) = false)
  ∧ (∀ s, m_computed (ref_by_string true s) = m_computed s)
  ∧ (∀ m s, m ≠ RefByString false → m_computed (call m s) = m_computed s)
  ∧ (∀ ms s, m_computed (run ms s) =
             m_computed s && negb (bool_decide (RefByString false ∈ ms)))
  ∧ (∀ ms s, m_computed s = false → m_computed (run ms s) = false)
  ∧ (∀ ms ms' s, m_computed (run ms s) = false →
                 m_computed (run (ms ++ ms') s) = false)
  ∧ (∀ this other, m_computed (assign_members this other) = m_computed other)
  ∧ (∀ this other (σ : store) t o,
       this ≠ other → σ !! this = Some t → σ !! other = Some o →
       ∃ σ', operator_assign this other σ = Some σ'
             ∧ m_computed <$> σ' !! this = Some (m_computed o)).
Proof.
  split_and!.
  - intros s. by open_record s; destruct cp.
  - intros s. by open_record s; destruct cp.
  - intros m s Hm. rewrite call_m_computed.
    rewrite bool_decide_eq_false_2 by congruence. apply andb_true_r.
  - apply run_m_computed.
  - intros ms s Hs. by rewrite run_m_computed, Hs.
  - intros ms ms' s Hs. by rewrite run_app, run_m_computed, Hs.
  - intros this other. by rewrite assign_members_other.
  - intros this other σ t o Hne Ht Ho. eexists. split.
    + by apply (operator_assign_distinct this other σ t o).
    + by rewrite lookup_insert_eq.
Qed.

Lemma computed_clear_only_witness :
  m_computed (run [RefByString false; ClearIfCompute; RefByString true] fresh)
  = false
  ∧ m_computed (call SetKeep fresh) = m_computed fresh.
Proof.
  destruct computed_clear_only as (_ & _ & Hother & _ & Hmono & _ & _).
  split.
  - apply (Hmono [ClearIfCompute; RefByString true] (ref_by_string false fresh)).
    reflexivity.
  - apply Hother. discriminate.
Defined.

(** The claim of C4 as stated fails on [operator=]: a record whose
    [m_computed] is false gets it back to true by assignment from a
    fresh record. *)
Lemma computed_restored_by_assignment :
  (σ ← exec_all [Construct 1; Call 1 (RefByString false); Construct 2] ∅;
   m_computed <$> σ !! 1%positive) = Some false
  ∧ (σ ← exec_all [Construct 1; Call 1 (RefByString false); Construct 2;
                   Assign 1 2] ∅;
     m_computed <$> σ !! 1%positive) = Some true.
Proof. split; vm_compute; reflexivity. Qed.

(** ** Invariant I1: a string reference is also a type reference *)

Lemma fresh_string_implies_type : string_implies_type fresh.
Proof. unfold string_implies_type; cbn. discriminate. Qed.

Lemma call_string_implies_type (m : method) (s : ReferencedState) :
  string_implies_type s → string_implies_type (call m s).
Proof.
  unfold string_implies_type.
  destruct m; open_record s; unfold call, clear_if_compute; cbn;
    try destruct cp; cbn; intuition congruence.
Qed.

Lemma run_string_implies_type (ms : list method) (s : ReferencedState) :
  string_implies_type s → string_implies_type (run ms s).
Proof.
  revert s; induction ms as [|m ms IH]; intros s Hs; cbn [run]; [done|].
  by apply IH, call_string_implies_type.
Qed.

Lemma insert_string_implies_type (a : addr) (s : ReferencedState) (σ : store) :
  string_implies_type s → store_string_implies_type σ →
  store_string_implies_type (<[a := s]> σ).
Proof.
  intros Hs Hσ b s'. rewrite lookup_insert. case_decide.
  - by intros [= <-].
  - apply Hσ.
Qed.

Lemma exec_string_implies_type (c : stmt) (σ σ' : store) :
  store_string_implies_type σ → exec c σ = Some σ' →
  store_string_implies_type σ'.
Proof.
  intros Hσ. destruct c as [a|a m|dst src]; cbn.
  - destruct (σ !! a); intros [= <-].
    by apply insert_string_implies_type, Hσ || apply fresh_string_implies_type.
  - unfold at_addr. destruct (σ !! a) as [s|] eqn:Ha; intros [= <-].
    apply insert_string_implies_type; [|done].
    by eapply call_string_implies_type, Hσ.
  - unfold operator_assign.
    destruct (σ !! dst) as [t|] eqn:Ht; [|done].
    destruct (σ !! src) as [o|] eqn:Ho; intros [= <-].
    case_decide; [|done].
    apply insert_string_implies_type; [|done].
    rewrite assign_members_other. by eapply Hσ.
Qed.

Lemma exec_all_string_implies_type (p : list stmt) (σ σ' : store) :
  store_string_implies_type σ → exec_all p σ = Some σ' →
  store_string_implies_type σ'.
Proof.
  revert σ; induction p as [|c p IH]; intros σ Hσ; cbn.
  - by intros [= <-].
  - destruct (exec c σ) as [σ1|] eqn:Hc; [|done]. cbn.
    by eapply IH, exec_string_implies_type.
Qed.

(** C5. [ref_by_string] sets both reference flags, [ref_by_type] sets
    [m_bytype] and nothing else, [clear_if_compute] clears both flags
    when [m_computed] is true and does nothing otherwise.  Hence after
    each call (after the first [n] calls, for every [n]) of every call
    sequence on a fresh record [m_bystring] implies [m_bytype], and no
    such sequence reaches a record with [m_bystring] true and [m_bytype]
    false; the same holds of every record of every store built by
    constructions, mutator calls and copy assignments. *)
Theorem string_reference_implies_type_reference :
  (∀ from_code s, m_bytype (ref_by_string from_code s) = true
                  ∧ m_bystring (ref_by_string from_code s) = true)
  ∧ (∀ s, ref_by_type s =
          mkReferencedState
            true (m_bystring s) (m_computed s) (m_keep s)
            (m_assumenosideeffects s) (m_blanket_keepnames s)
            (m_whyareyoukeeping s)
            (m_set_allowshrinking s) (m_unset_allowshrinking s)
            (m_set_allowobfuscation s) (m_unset_allowobfuscation s)
            (m_keep_name s) (m_keep_count s))
  ∧ (∀ s, m_computed s = true →
          m_bytype (clear_if_compute s) = false
          ∧ m_bystring (clear_if_compute s) = false)
  ∧ (∀ s, m_computed s = false → clear_if_compute s = s)
  ∧ (∀ ms n, string_implies_type (run (take n ms) fresh))
  ∧ (∀ ms, ¬ (m_bystring (run ms fresh) = true
              ∧ m_bytype (run ms fresh) = false))
  ∧ (∀ p σ, exec_all p ∅ = Some σ → store_string_implies_type σ).
Proof.
  split_and!.
  - intros fc s. by open_record s.
  - intros s. by open_record s.
  - intros s Hs. open_record s; cbn in Hs; subst. by unfold clear_if_compute.
  - intros s Hs. unfold clear_if_compute. by rewrite Hs.
  - intros ms n. apply run_string_implies_type, fresh_string_implies_type.
  - intros ms [Hs Ht].
    pose proof (run_string_implies_type ms fresh fresh_string_implies_type Hs).
    congruence.
  - intros p σ. apply exec_all_string_implies_type.
    intros a s. by rewrite lookup_empty.
Qed.

Lemma string_reference_implies_type_reference_witness :
  store_string_implies_type
    (<[2%positive := ref_by_string true fresh]>
       (<[1%positive := clear_if_compute (ref_by_string true fresh)]> ∅))
  ∧ clear_if_compute (ref_by_string false fresh) = ref_by_string false fresh.
Proof.
  destruct string_reference_implies_type_reference
    as (_ & _ & _ & Hpinned & _ & _ & Hstore).
  split.
  - apply (Hstore [Construct 1; Call 1 (RefByString true); Construct 2;
                   Assign 2 1; Call 1 ClearIfCompute]).
    vm_compute. reflexivity.
  - apply Hpinned. reflexivity.
Defined.

(** ** Clearing before a recompute *)

(** C7, as the code has it.  On a record whose [m_computed] is true,
    [clear_if_compute()] followed by [ref_by_type()] leaves the three
    reference members as they are in a fresh record after
    [ref_by_type()] ([m_bytype] true, [m_bystring] false, [m_computed]
    true) and every other member as it was; the whole record is the
    fresh one after [ref_by_type()] when the record differed from a
    fresh one in its reference flags only.  On a record whose
    [m_computed] is false, [clear_if_compute()] changes nothing. *)
Theorem clear_if_compute_then_ref_by_type :
  (∀ s, m_computed s = true →
        ref_by_type (clear_if_compute s) =
        mkReferencedState
          (m_bytype (ref_by_type fresh)) (m_bystring (ref_by_type fresh))
          (m_computed (ref_by_type fresh))
          (m_keep s) (m_assumenosideeffects s) (m_blanket_keepnames s)
          (m_whyareyoukeeping s)
          (m_set_allowshrinking s) (m_unset_allowshrinking s)
          (m_set_allowobfuscation s) (m_unset_allowobfuscation s)
          (m_keep_name s) (m_keep_count s))
  ∧ (∀ bt bs,
        ref_by_type (clear_if_compute (put_m_bytype bt (put_m_bystring bs fresh)))
        = ref_by_type fresh)
  ∧ (∀ s, m_computed s = false →
        clear_if_compute s = s
        ∧ m_bytype (clear_if_compute s) = m_bytype s
        ∧ m_bystring (clear_if_compute s) = m_bystring s).
Proof.
  split_and!.
  - intros s Hs. open_record s; cbn in Hs; subst. reflexivity.
  - reflexivity.
  - intros s Hs. unfold clear_if_compute. by rewrite Hs.
Qed.

Lemma clear_if_compute_then_ref_by_type_witness :
  ref_by_type (clear_if_compute (set_keep (ref_by_string true fresh)))
  = set_keep (ref_by_type fresh)
  ∧ clear_if_compute (ref_by_string false fresh) = ref_by_string false fresh.
Proof.
  destruct clear_if_compute_then_ref_by_type as (Hclear & _ & Hpinned).
  split.
  - apply (Hclear (set_keep (ref_by_string true fresh))). reflexivity.
  - apply (Hpinned (ref_by_string false fresh)). reflexivity.
Defined.

(** The claim of C7 as stated fails on a kept record: its [m_computed]
    is true, and after [clear_if_compute()] and [ref_by_type()] it still
    has [m_keep], which a fresh record after [ref_by_type()] has not. *)
Lemma clear_if_compute_keeps_keep_flags :
  m_computed (set_keep fresh) = true
  ∧ m_keep (ref_by_type (clear_if_compute (set_keep fresh))) = true
  ∧ m_keep (ref_by_type fresh) = false
  ∧ ref_by_type (clear_if_compute (set_keep fresh)) ≠ ref_by_type fresh.
Proof. split_and!; try reflexivity. discriminate. Qed.

(** ** The keep counter *)

Lemma UINT_MODULUS_pos : 0 < UINT_MODULUS.
Proof. reflexivity. Qed.

Lemma increments_cons (m : method) (ms : list method) :
  increments (m :: ms)
  = (if decide (m = IncrementKeepCount) then S (increments ms)
     else increments ms).
Proof. unfold increments. rewrite filter_cons. by case_decide. Qed.

Lemma increments_replicate (n : nat) :
  increments (replicate n IncrementKeepCount) = n.
Proof.
  induction n as [|n IH]; [done|].
  cbn [replicate]. rewrite increments_cons, decide_True by done. by rewrite IH.
Qed.

Lemma call_m_keep_count (m : method) (s : ReferencedState) :
  m_keep_count (call m s)
  = (if decide (m = IncrementKeepCount)
     then (m_keep_count s + 1) mod UINT_MODULUS else m_keep_count s).
Proof.
  destruct m; open_record s; unfold call, clear_if_compute; cbn;
    try destruct cp; reflexivity.
Qed.

(** Starting in range, the counter after a call sequence is the start
    value plus the number of increments, modulo 2^32. *)
Lemma run_m_keep_count (ms : list method) (s : ReferencedState) :
  0 ≤ m_keep_count s < UINT_MODULUS →
  m_keep_count (run ms s)
  = (m_keep_count s + Z.of_nat (increments ms)) mod UINT_MODULUS.
Proof.
  pose proof UINT_MODULUS_pos as HM.
  revert s; induction ms as [|m ms IH]; intros s Hs; cbn [run].
  - cbn. rewrite Z.add_0_r. symmetry. by apply Z.mod_small.
  - rewrite increments_cons, IH; rewrite call_m_keep_count; case_decide.
    + rewrite Zplus_mod_idemp_l. f_equal. lia.
    + done.
    + by apply Z.mod_pos_bound.
    + done.
Qed.

Lemma run_fresh_m_keep_count (ms : list method) :
  m_keep_count (run ms fresh) = Z.of_nat (increments ms) mod UINT_MODULUS.
Proof. by rewrite run_m_keep_count. Qed.

Lemma is_blanket_names_kept_true (s : ReferencedState) :
  is_blanket_names_kept s = true ↔
  m_blanket_keepnames s = true ∧ m_keep_count s = 1.
Proof.
  unfold is_blanket_names_kept. rewrite andb_true_iff, Z.eqb_eq. done.
Qed.

Lemma is_blanket_names_kept_run_fresh (ms : list method) :
  is_blanket_names_kept (run ms fresh) = true ↔
  SetBlanketKeepnames ∈ ms ∧ Z.of_nat (increments ms) mod UINT_MODULUS = 1.
Proof.
  rewrite is_blanket_names_kept_true, run_m_blanket_keepnames.
  rewrite run_fresh_m_keep_count. cbn. by rewrite bool_decide_eq_true.
Qed.

(** C6, as the code has it.  For every record
    [is_blanket_names_kept()] is true exactly when [m_blanket_keepnames]
    is true and [m_keep_count] is 1.  After a call sequence on a fresh
    record it is true exactly when [set_blanket_keepnames()] was called
    and the number of [increment_keep_count()] calls is 1 modulo 2^32,
    that is, exactly one call as long as fewer than 2^32 were made; and
    whenever it is true, one more increment makes it false. *)
Theorem is_blanket_names_kept_spec :
  (∀ s, is_blanket_names_kept s = true ↔
        m_blanket_keepnames s = true ∧ m_keep_count s = 1)
  ∧ (∀ ms, is_blanket_names_kept (run ms fresh) = true ↔
           SetBlanketKeepnames ∈ ms
           ∧ Z.of_nat (increments ms) mod UINT_MODULUS = 1)
  ∧ (∀ ms, Z.of_nat (increments ms) < UINT_MODULUS →
           (is_blanket_names_kept (run ms fresh) = true ↔
            SetBlanketKeepnames ∈ ms ∧ increments ms = 1%nat))
  ∧ (∀ s, is_blanket_names_kept s = true →
          is_blanket_names_kept (increment_keep_count s) = false).
Proof.
  split_and!.
  - apply is_blanket_names_kept_true.
  - apply is_blanket_names_kept_run_fresh.
  - intros ms Hlt. rewrite is_blanket_names_kept_run_fresh.
    rewrite Z.mod_small by lia. by rewrite <- Nat2Z.inj_iff.
  - intros s [_ Hc]%is_blanket_names_kept_true.
    open_record s; cbn in Hc; subst.
    apply andb_false_iff. right. reflexivity.
Qed.

Lemma is_blanket_names_kept_spec_witness :
  is_blanket_names_kept
    (run [IncrementKeepCount; SetKeep; SetBlanketKeepnames] fresh) = true
  ∧ is_blanket_names_kept
      (run [IncrementKeepCount; SetKeep; SetBlanketKeepnames;
            IncrementKeepCount] fresh) = false.
Proof.
  destruct is_blanket_names_kept_spec as (_ & _ & Hsmall & Hnext).
  assert (is_blanket_names_kept
            (run [IncrementKeepCount; SetKeep; SetBlanketKeepnames] fresh)
          = true) as Hone.
  { apply Hsmall.
    - reflexivity.
    - split; [|reflexivity]. rewrite !elem_of_cons. tauto. }
  split; [exact Hone|].
  apply (Hnext _ Hone).
Defined.

(** The claim of C6 as stated fails once the counter wraps: after
    [set_blanket_keepnames()] and 2^32 + 1 increments the counter is 1
    again and [is_blanket_names_kept()] is true, though the increment
    was not called exactly once. *)
Lemma blanket_names_kept_after_wraparound :
  is_blanket_names_kept
    (run (SetBlanketKeepnames
            :: replicate (Z.to_nat (UINT_MODULUS + 1)) IncrementKeepCount)
         fresh) = true
  ∧ Z.of_nat
      (increments
         (SetBlanketKeepnames
            :: replicate (Z.to_nat (UINT_MODULUS + 1)) IncrementKeepCount))
    = 4294967297.
Proof.
  assert (increments
            (SetBlanketKeepnames
               :: replicate (Z.to_nat (UINT_MODULUS + 1)) IncrementKeepCount)
          = Z.to_nat (UINT_MODULUS + 1)) as Hn.
  { rewrite increments_cons, decide_False by discriminate.
    apply increments_replicate. }
  assert (Z.of_nat (Z.to_nat (UINT_MODULUS + 1)) = 4294967297) as Hz.
  { apply Z2Nat.id. discriminate. }
  split.
  - apply is_blanket_names_kept_run_fresh. split.
    + apply list_elem_of_here.
    + rewrite Hn, Hz. reflexivity.
  - rewrite Hn. exact Hz.
Qed.

(** ** Copies and their counters *)

Lemma exec_all_increment_n (a : addr) (n : nat) (σ : store) (s : ReferencedState) :
  σ !! a = Some s →
  exec_all (increment_n a n) σ
  = Some (<[a := run (replicate n IncrementKeepCount) s]> σ).
Proof.
  unfold increment_n.
  revert σ s; induction n as [|n IH]; intros σ s Ha; cbn.
  - by rewrite insert_id.
  - unfold at_addr. rewrite Ha; cbn.
    rewrite (IH _ (increment_keep_count s)) by apply lookup_insert_eq.
    by rewrite insert_insert_eq.
Qed.

(** C8. Copy assignment between two distinct records leaves the target
    equal to the source in every member, the counter value included,
    and the source as it was.  Afterwards the two counters are separate
    cells: any number of increments on the copy leaves the source
    record, counter included, unchanged, and any number of increments
    on the source leaves the copy unchanged; the incremented record is
    the copied value after that many increments. *)
Theorem copy_assignment_snapshot (this other : addr) (σ : store)
    (t o : ReferencedState) :
  this ≠ other → σ !! this = Some t → σ !! other = Some o →
  ∃ σ', operator_assign this other σ = Some σ'
        ∧ σ' !! this = Some o
        ∧ σ' !! other = Some o
        ∧ (∀ n, ∃ σ1,
              exec_all (increment_n this n) σ' = Some σ1
              ∧ σ1 !! other = Some o
              ∧ σ1 !! this = Some (run (replicate n IncrementKeepCount) o))
        ∧ (∀ n, ∃ σ2,
              exec_all (increment_n other n) σ' = Some σ2
              ∧ σ2 !! this = Some o
              ∧ σ2 !! other = Some (run (replicate n IncrementKeepCount) o)).
Proof.
  intros Hne Ht Ho.
  assert (<[this := o]> σ !! this = Some o) as Hthis by apply lookup_insert_eq.
  assert (<[this := o]> σ !! other = Some o) as Hother
    by by rewrite lookup_insert_ne.
  exists (<[this := o]> σ). split_and!; try done.
  - by apply (operator_assign_distinct this other σ t o).
  - intros n. eexists. split_and!.
    + by apply exec_all_increment_n.
    + by rewrite lookup_insert_ne.
    + apply lookup_insert_eq.
  - intros n. eexists. split_and!.
    + by apply exec_all_increment_n.
    + by rewrite lookup_insert_ne.
    + apply lookup_insert_eq.
Qed.

Lemma copy_assignment_snapshot_witness :
  ∃ σ', operator_assign 2 1
          (<[2%positive := fresh]>
             (<[1%positive := increment_keep_count (set_keep fresh)]> ∅))
        = Some σ'
        ∧ σ' !! 2%positive = Some (increment_keep_count (set_keep fresh))
        ∧ σ' !! 1%positive = Some (increment_keep_count (set_keep fresh))
        ∧ (∀ n, ∃ σ1,
              exec_all (increment_n 2 n) σ' = Some σ1
              ∧ σ1 !! 1%positive = Some (increment_keep_count (set_keep fresh))
              ∧ σ1 !! 2%positive
                = Some (run (replicate n IncrementKeepCount)
                            (increment_keep_count (set_keep fresh))))
        ∧ (∀ n, ∃ σ2,
              exec_all (increment_n 1 n) σ' = Some σ2
              ∧ σ2 !! 2%positive = Some (increment_keep_count (set_keep fresh))
              ∧ σ2 !! 1%positive
                = Some (run (replicate n IncrementKeepCount)
                            (increment_keep_count (set_keep fresh)))).
Proof.
  apply (copy_assignment_snapshot 2 1 _ fresh).
  - discriminate.
  - reflexivity.
  - reflexivity.
Defined.

(** Three increments on a copy of a record whose counter is 1: the copy
    counts 4, the source still 1. *)
Example copy_then_increment :
  (σ ← exec_all [Construct 1; Call 1 IncrementKeepCount; Construct 2;
                 Assign 2 1; Call 2 IncrementKeepCount;
                 Call 2 IncrementKeepCount; Call 2 IncrementKeepCount] ∅;
   s1 ← σ !! 1%positive; s2 ← σ !! 2%positive;
   Some (m_keep_count s1, m_keep_count s2)) = Some (1, 4).
Proof. vm_compute. reflexivity. Qed.

(** * Further properties of the class *)

(** ** Flags that are set once *)

Lemma run_m_keep_name ms s :
  m_keep_name (run ms s) = m_keep_name s || bool_decide (SetKeepName ∈ ms).
Proof. apply run_set_once. intros m s'. by_method m s'. Qed.

Lemma run_m_assumenosideeffects ms s :
  m_assumenosideeffects (run ms s)
  = m_assumenosideeffects s || bool_decide (SetAssumenosideeffects ∈ ms).
Proof. apply run_set_once. intros m s'. by_method m s'. Qed.

Lemma run_m_whyareyoukeeping ms s :
  m_whyareyoukeeping (run ms s)
  = m_whyareyoukeeping s || bool_decide (SetWhyareyoukeeping ∈ ms).
Proof. apply run_set_once. intros m s'. by_method m s'. Qed.

(** X1. No mutator clears a keep flag: after any call sequence,
    [keep()], [assumenosideeffects()], [report_whyareyoukeeping()] and
    [m_keep_name] are true exactly when they were true before or their
    setter was called, so a flag that is true stays true. *)
Theorem keep_flags_set_once (ms : list method) (s : ReferencedState) :
  keep (run ms s) = keep s || bool_decide (SetKeep ∈ ms)
  ∧ assumenosideeffects (run ms s)
    = assumenosideeffects s || bool_decide (SetAssumenosideeffects ∈ ms)
  ∧ report_whyareyoukeeping (run ms s)
    = report_whyareyoukeeping s || bool_decide (SetWhyareyoukeeping ∈ ms)
  ∧ m_keep_name (run ms s)
    = m_keep_name s || bool_decide (SetKeepName ∈ ms)
  ∧ (keep s = true → keep (run ms s) = true)
  ∧ (assumenosideeffects s = true → assumenosideeffects (run ms s) = true)
  ∧ (report_whyareyoukeeping s = true →
     report_whyareyoukeeping (run ms s) = true)
  ∧ (m_keep_name s = true → m_keep_name (run ms s) = true).
Proof.
  unfold keep, assumenosideeffects, report_whyareyoukeeping.
  rewrite run_m_keep, run_m_assumenosideeffects, run_m_whyareyoukeeping,
    run_m_keep_name.
  split_and!; try reflexivity; by intros ->.
Qed.

Lemma keep_flags_set_once_witness :
  keep (run [ClearIfCompute; SetAllowshrinking; IncrementKeepCount]
            (set_keep fresh)) = true.
Proof.
  destruct (keep_flags_set_once
              [ClearIfCompute; SetAllowshrinking; IncrementKeepCount]
              (set_keep fresh)) as (_ & _ & _ & _ & H & _).
  apply H. reflexivity.
Defined.

(** ** What keep rules make permanent *)

(** X2. A record that is kept with [unset_allowshrinking()] recorded can
    never be deleted again, and a record with [m_keep_name], or kept
    with [unset_allowobfuscation()] recorded, can never be renamed
    again, whatever mutators are called afterwards. *)
Theorem keep_rules_are_permanent (ms : list method) (s : ReferencedState) :
  (m_keep s = true → m_unset_allowshrinking s = true →
   can_delete (run ms s) = false)
  ∧ (m_keep_name s = true → can_rename (run ms s) = false)
  ∧ (m_keep s = true → m_unset_allowobfuscation s = true →
     can_rename (run ms s) = false).
Proof.
  unfold can_delete, can_rename, allowshrinking, allowobfuscation.
  rewrite run_m_keep, run_m_keep_name, run_m_unset_allowshrinking,
    run_m_unset_allowobfuscation.
  split_and!.
  - intros -> ->. cbn. apply andb_false_r.
  - intros ->. reflexivity.
  - intros -> ->. cbn. by rewrite andb_false_r.
Qed.

Lemma keep_rules_are_permanent_witness :
  can_delete (run [SetAllowshrinking; ClearIfCompute]
                  (unset_allowshrinking (set_keep fresh))) = false
  ∧ can_rename (run [SetAllowobfuscation] (set_keep_name fresh)) = false.
Proof.
  split.
  - destruct (keep_rules_are_permanent [SetAllowshrinking; ClearIfCompute]
                (unset_allowshrinking (set_keep fresh))) as (H & _ & _).
    apply H; reflexivity.
  - destruct (keep_rules_are_permanent [SetAllowobfuscation]
                (set_keep_name fresh)) as (_ & H & _).
    apply H; reflexivity.
Defined.

(** X3. A kept record is never both deletable and renamable: deleting a
    kept record needs [allowshrinking()], which [can_rename()] excludes.
    So a record that is both deletable and renamable is not kept. *)
Theorem kept_not_deletable_and_renamable (s : ReferencedState) :
  (keep s = true → can_delete s && can_rename s = false)
  ∧ (can_delete s = true → can_rename s = true → keep s = false).
Proof.
  unfold keep, can_delete, can_rename, allowshrinking, allowobfuscation.
  open_record s; cbn.
  destruct bt, bs, kp, kn, ss, us; cbn; split; try done;
    rewrite ?andb_false_r; try done; by destruct so, uo.
Qed.

Lemma kept_not_deletable_and_renamable_witness :
  can_delete (set_allowshrinking (set_keep fresh))
  && can_rename (set_allowshrinking (set_keep fresh)) = false.
Proof.
  destruct (kept_not_deletable_and_renamable
              (set_allowshrinking (set_keep fresh))) as (H & _).
  apply H. reflexivity.
Defined.

(** ** Pinned references *)

Lemma call_pinned (m : method) (s : ReferencedState) :
  m_computed s = false →
  m_computed (call m s) = false
  ∧ (m_bytype s = true → m_bytype (call m s) = true)
  ∧ (m_bystring s = true → m_bystring (call m s) = true).
Proof.
  intros Hs. destruct m; open_record s; cbn in Hs; subst;
    unfold call, clear_if_compute; cbn; done.
Qed.

Lemma run_pinned (ms : list method) (s : ReferencedState) :
  m_computed s = false →
  (m_bytype s = true → m_bytype (run ms s) = true)
  ∧ (m_bystring s = true → m_bystring (run ms s) = true).
Proof.
  revert s; induction ms as [|m ms IH]; intros s Hs; cbn [run]; [done|].
  destruct (call_pinned m s Hs) as (Hc & Ht & Hb).
  destruct (IH _ Hc) as [IHt IHb]. split; auto.
Qed.

(** X4. Once [m_computed] is false, [clear_if_compute()] no longer
    clears anything: a reference flag that is set stays set under every
    later call sequence, so the record is never deletable again (and,
    with a string reference, never renamable).  In particular a single
    [ref_by_string(false)] makes [can_delete()] and [can_rename()] false
    for good. *)
Theorem pinned_references_are_permanent (ms : list method) (s : ReferencedState) :
  (m_computed s = false → m_bytype s = true →
   is_referenced_by_type (run ms s) = true ∧ can_delete (run ms s) = false)
  ∧ (m_computed s = false → m_bystring s = true →
     is_referenced_by_string (run ms s) = true ∧ can_rename (run ms s) = false)
  ∧ can_delete (run (RefByString false :: ms) s) = false
  ∧ can_rename (run (RefByString false :: ms) s) = false.
Proof.
  assert (∀ s', m_computed s' = false → m_bytype s' = true →
                is_referenced_by_type (run ms s') = true
                ∧ can_delete (run ms s') = false) as Htype.
  { intros s' Hc Ht. destruct (run_pinned ms s' Hc) as [H _].
    unfold is_referenced_by_type, can_delete. by rewrite (H Ht). }
  assert (∀ s', m_computed s' = false → m_bystring s' = true →
                is_referenced_by_string (run ms s') = true
                ∧ can_rename (run ms s') = false) as Hstring.
  { intros s' Hc Hb. destruct (run_pinned ms s' Hc) as [_ H].
    unfold is_referenced_by_string, can_rename. rewrite (H Hb).
    by rewrite andb_false_r. }
  split_and!; [apply Htype | apply Hstring | |]; cbn [run call].
  - apply Htype; open_record s; cbn; by rewrite ?andb_false_r.
  - apply Hstring; open_record s; cbn; by rewrite ?andb_false_r.
Qed.

Lemma pinned_references_are_permanent_witness :
  is_referenced_by_type
    (run [ClearIfCompute; RefByString true; ClearIfCompute]
         (ref_by_string false fresh)) = true
  ∧ can_delete
      (run [ClearIfCompute; RefByString true; ClearIfCompute]
           (ref_by_string false fresh)) = false.
Proof.
  destruct (pinned_references_are_permanent
              [ClearIfCompute; RefByString true; ClearIfCompute]
              (ref_by_string false fresh)) as (H & _).
  apply H; reflexivity.
Defined.

(** ** Clearing *)

Lemma clear_if_compute_code_reference (m : method) (s : ReferencedState) :
  is_code_reference m = true → m_computed s = true →
  m_computed (call m s) = true
  ∧ clear_if_compute (call m s) = clear_if_compute s.
Proof.
  intros Hm Hs.
  destruct m as [[]| | | | | | | | | | | |]; try discriminate;
    open_record s; cbn in Hs; subst; done.
Qed.

(** X5. On a record whose [m_computed] is true, [clear_if_compute()]
    erases every reference recorded from code: after any sequence of
    [ref_by_type()] and [ref_by_string(true)] calls the record is still
    computed and clearing it gives the same record as clearing it
    before those calls.  Clearing twice is clearing once. *)
Theorem clear_if_compute_erases_code_references
    (ms : list method) (s : ReferencedState) :
  (m_computed s = true → Forall (λ m, is_code_reference m = true) ms →
   m_computed (run ms s) = true
   ∧ clear_if_compute (run ms s) = clear_if_compute s)
  ∧ clear_if_compute (clear_if_compute s) = clear_if_compute s.
Proof.
  split.
  - intros Hs Hms. revert s Hs.
    induction Hms as [|m ms Hm _ IH]; intros s Hs; cbn [run]; [done|].
    destruct (clear_if_compute_code_reference m s Hm Hs) as [Hc Heq].
    destruct (IH _ Hc) as [IHc IHeq]. split; [done|]. by rewrite IHeq.
  - open_record s. by destruct cp.
Qed.

Lemma clear_if_compute_erases_code_references_witness :
  clear_if_compute
    (run [RefByType; RefByString true; RefByType] (set_keep fresh))
  = set_keep fresh.
Proof.
  destruct (clear_if_compute_erases_code_references
              [RefByType; RefByString true; RefByType] (set_keep fresh))
    as (H & _).
  apply H; [reflexivity|].
  repeat constructor.
Defined.

(** X6. [clear_if_compute()] never makes a record less deletable or
    less renamable, and it leaves every keep-rule member and the
    counter untouched. *)
Theorem clear_if_compute_never_restricts (s : ReferencedState) :
  (can_delete s = true → can_delete (clear_if_compute s) = true)
  ∧ (can_rename s = true → can_rename (clear_if_compute s) = true)
  ∧ keep_members (clear_if_compute s) = keep_members s
  ∧ m_computed (clear_if_compute s) = m_computed s.
Proof.
  unfold can_delete, can_rename, allowshrinking, allowobfuscation,
    clear_if_compute.
  open_record s; cbn. destruct cp; cbn; split_and!; try done.
  - by destruct bt.
  - destruct kn; [done|]. by destruct bs.
Qed.

Lemma clear_if_compute_never_restricts_witness :
  can_rename (clear_if_compute (set_allowobfuscation (set_keep fresh))) = true.
Proof.
  destruct (clear_if_compute_never_restricts
              (set_allowobfuscation (set_keep fresh))) as (_ & H & _).
  apply H. reflexivity.
Defined.

(** ** References and the predicates *)

(** X7. On every record reached from a fresh one, and on every record of
    a store built by constructions, mutator calls and copy assignments,
    a string reference rules out both deleting and renaming:
    [is_referenced_by_string()] implies that [can_delete()] and
    [can_rename()] are false. *)
Theorem string_referenced_not_deletable_nor_renamable :
  (∀ ms, is_referenced_by_string (run ms fresh) = true →
         can_delete (run ms fresh) = false
         ∧ can_rename (run ms fresh) = false)
  ∧ (∀ p (σ : store) a s,
       exec_all p ∅ = Some σ → σ !! a = Some s →
       is_referenced_by_string s = true →
       can_delete s = false ∧ can_rename s = false).
Proof.
  assert (∀ s, string_implies_type s → is_referenced_by_string s = true →
               can_delete s = false ∧ can_rename s = false) as Hrec.
  { unfold string_implies_type, is_referenced_by_string, can_delete, can_rename.
    intros s Hinv Hb. rewrite (Hinv Hb), Hb. split; [done|].
    by rewrite andb_false_r. }
  split.
  - intros ms. apply Hrec, run_string_implies_type, fresh_string_implies_type.
  - intros p σ a s Hp Ha. apply Hrec.
    eapply (exec_all_string_implies_type p ∅ σ); [|done|done].
    intros b s'. by rewrite lookup_empty.
Qed.

Lemma string_referenced_not_deletable_nor_renamable_witness :
  can_delete (run [SetAllowshrinking; RefByString true] fresh) = false
  ∧ can_rename (run [SetAllowshrinking; RefByString true] fresh) = false.
Proof.
  destruct string_referenced_not_deletable_nor_renamable as (H & _).
  apply (H [SetAllowshrinking; RefByString true]). reflexivity.
Defined.

(** ** The two writers do not touch each other's members *)

Lemma call_reference_method (m : method) (s : ReferencedState) :
  is_reference_method m = true → keep_members (call m s) = keep_members s.
Proof.
  destruct m; try discriminate; intros _; open_record s;
    unfold call, clear_if_compute; cbn; try destruct cp; reflexivity.
Qed.

Lemma call_keep_rule_method (m : method) (s : ReferencedState) :
  is_reference_method m = false →
  reference_members (call m s) = reference_members s.
Proof. destruct m; try discriminate; intros _; by open_record s. Qed.

(** X8. The calls of the reference analysis ([ref_by_string],
    [ref_by_type], [clear_if_compute]) never change a keep-rule member
    or the counter, so [keep()], [allowshrinking()],
    [allowobfuscation()] and [is_blanket_names_kept()] are what they
    were; the calls of the keep rules never change [m_bytype],
    [m_bystring] or [m_computed]. *)
Theorem writers_are_separate (ms : list method) (s : ReferencedState) :
  (Forall (λ m, is_reference_method m = true) ms →
   keep_members (run ms s) = keep_members s
   ∧ keep (run ms s) = keep s
   ∧ allowshrinking (run ms s) = allowshrinking s
   ∧ allowobfuscation (run ms s) = allowobfuscation s
   ∧ is_blanket_names_kept (run ms s) = is_blanket_names_kept s)
  ∧ (Forall (λ m, is_reference_method m = false) ms →
     reference_members (run ms s) = reference_members s
     ∧ is_referenced_by_type (run ms s) = is_referenced_by_type s
     ∧ is_referenced_by_string (run ms s) = is_referenced_by_string s).
Proof.
  split.
  - intros Hms.
    assert (keep_members (run ms s) = keep_members s) as Heq.
    { revert s. induction Hms as [|m ms Hm _ IH]; intros s; cbn [run]; [done|].
      by rewrite IH, call_reference_method. }
    split; [done|]. unfold keep_members in Heq.
    unfold keep, allowshrinking, allowobfuscation, is_blanket_names_kept.
    injection Heq; intros; split_and!; congruence.
  - intros Hms.
    assert (reference_members (run ms s) = reference_members s) as Heq.
    { revert s. induction Hms as [|m ms Hm _ IH]; intros s; cbn [run]; [done|].
      by rewrite IH, call_keep_rule_method. }
    split; [done|]. unfold reference_members in Heq.
    unfold is_referenced_by_type, is_referenced_by_string.
    injection Heq; intros; split_and!; congruence.
Qed.

Lemma writers_are_separate_witness :
  keep_members (run [RefByString false; ClearIfCompute; RefByType]
                    (set_keep fresh))
  = keep_members (set_keep fresh)
  ∧ reference_members (run [SetKeep; IncrementKeepCount; UnsetAllowshrinking]
                           (ref_by_type fresh))
    = reference_members (ref_by_type fresh).
Proof.
  split.
  - destruct (writers_are_separate
                [RefByString false; ClearIfCompute; RefByType]
                (set_keep fresh)) as (H & _).
    apply H. repeat constructor.
  - destruct (writers_are_separate
                [SetKeep; IncrementKeepCount; UnsetAllowshrinking]
                (ref_by_type fresh)) as (_ & H).
    apply H. repeat constructor.
Defined.

(** ** Invariants of every record of a store *)

(** A property that holds of a fresh record and is kept by every mutator
    holds of every record of every store: a construction adds a fresh
    record, a call changes one record, and an assignment puts a record
    of the store in the place of another. *)
Section store_invariant.
Variable P : ReferencedState → Prop.
Hypothesis P_fresh : P fresh.
Hypothesis P_call : ∀ m s, P s → P (call m s).

Lemma exec_store_invariant (c : stmt) (σ σ' : store) :
  (∀ a s, σ !! a = Some s → P s) → exec c σ = Some σ' →
  ∀ a s, σ' !! a = Some s → P s.
Proof using P_fresh P_call.
  intros Hσ Hc b s'. destruct c as [a|a m|dst src]; cbn in Hc.
  - destruct (σ !! a); simplify_eq.
    rewrite lookup_insert. case_decide; [by intros [= <-] | apply Hσ].
  - unfold at_addr in Hc. destruct (σ !! a) as [s|] eqn:Ha; simplify_eq/=.
    rewrite lookup_insert. case_decide; [|apply Hσ].
    intros [= <-]. by eapply P_call, Hσ.
  - unfold operator_assign in Hc.
    destruct (σ !! dst) as [t|] eqn:Ht; [|done].
    destruct (σ !! src) as [o|] eqn:Ho; simplify_eq/=.
    case_decide; [|apply Hσ].
    rewrite lookup_insert. case_decide; [|apply Hσ].
    intros [= <-]. rewrite assign_members_other. by eapply Hσ.
Qed.

Lemma exec_all_store_invariant (p : list stmt) (σ σ' : store) :
  (∀ a s, σ !! a = Some s → P s) → exec_all p σ = Some σ' →
  ∀ a s, σ' !! a = Some s → P s.
Proof using P_fresh P_call.
  revert σ; induction p as [|c p IH]; intros σ Hσ; cbn.
  - by intros [= <-].
  - destruct (exec c σ) as [σ1|] eqn:Hc; [|done]. cbn.
    apply IH. by apply (exec_store_invariant c σ).
Qed.
End store_invariant.

(** ** The counter stays an unsigned int *)

Lemma call_keep_count_in_range (m : method) (s : ReferencedState) :
  keep_count_in_range s → keep_count_in_range (call m s).
Proof.
  unfold keep_count_in_range. rewrite call_m_keep_count. case_decide; [|done].
  intros _. apply Z.mod_pos_bound, UINT_MODULUS_pos.
Qed.

Lemma run_keep_count_in_range (ms : list method) (s : ReferencedState) :
  keep_count_in_range s → keep_count_in_range (run ms s).
Proof.
  revert s; induction ms as [|m ms IH]; intros s Hs; cbn [run]; [done|].
  by apply IH, call_keep_count_in_range.
Qed.

(** X9. The keep counter counts modulo 2^32.  One increment adds one,
    except at 4294967295 where the counter goes back to 0.  From a
    value in range, a call sequence leaves the counter in range and
    equal to the old value plus the number of
    [increment_keep_count()] calls, modulo 2^32, whatever other calls
    are made in between; so on a fresh record it is exactly the number
    of increments as long as that is less than 2^32. *)
Theorem keep_count_counts_increments (ms : list method) (s : ReferencedState) :
  (keep_count_in_range s → m_keep_count s ≠ UINT_MODULUS - 1 →
   m_keep_count (increment_keep_count s) = m_keep_count s + 1)
  ∧ (m_keep_count s = UINT_MODULUS - 1 →
     m_keep_count (increment_keep_count s) = 0)
  ∧ (keep_count_in_range s →
     keep_count_in_range (run ms s)
     ∧ m_keep_count (run ms s)
       = (m_keep_count s + Z.of_nat (increments ms)) mod UINT_MODULUS)
  ∧ (Z.of_nat (increments ms) < UINT_MODULUS →
     m_keep_count (run ms fresh) = Z.of_nat (increments ms)).
Proof.
  pose proof UINT_MODULUS_pos as HM.
  unfold keep_count_in_range.
  split_and!.
  - intros Hs Hmax. open_record s; cbn in *. apply Z.mod_small. lia.
  - intros Hs. open_record s; cbn in *. subst.
    replace (UINT_MODULUS - 1 + 1) with (1 * UINT_MODULUS) by lia.
    apply Z.mod_mul. lia.
  - intros Hs. split.
    + by apply run_keep_count_in_range.
    + by apply run_m_keep_count.
  - intros Hlt. rewrite run_fresh_m_keep_count. apply Z.mod_small. lia.
Qed.

Lemma keep_count_counts_increments_witness :
  m_keep_count (increment_keep_count (put_m_keep_count 4294967295 fresh)) = 0
  ∧ m_keep_count
      (run [IncrementKeepCount; SetKeep; IncrementKeepCount; ClearIfCompute]
           fresh) = 2.
Proof.
  split.
  - destruct (keep_count_counts_increments []
                (put_m_keep_count 4294967295 fresh)) as (_ & H & _).
    apply H. reflexivity.
  - destruct (keep_count_counts_increments
                [IncrementKeepCount; SetKeep; IncrementKeepCount; ClearIfCompute]
                fresh) as (_ & _ & _ & H).
    apply H. reflexivity.
Defined.

(** X10. In every store built from the empty one by constructions,
    mutator calls and copy assignments, every record's counter is a
    value of [unsigned int]: at least 0 and below 2^32. *)
Theorem store_keep_counts_in_range (p : list stmt) (σ : store) :
  exec_all p ∅ = Some σ → store_keep_count_in_range σ.
Proof.
  intros Hp. unfold store_keep_count_in_range.
  apply (exec_all_store_invariant keep_count_in_range) with (p := p) (σ := ∅).
  - unfold keep_count_in_range; cbn. split; [done | apply UINT_MODULUS_pos].
  - apply call_keep_count_in_range.
  - intros a s. by rewrite lookup_empty.
  - done.
Qed.

Lemma store_keep_counts_in_range_witness :
  store_keep_count_in_range
    (<[2%positive := increment_keep_count fresh]>
       (<[1%positive := increment_keep_count fresh]> ∅)).
Proof.
  apply (store_keep_counts_in_range
           [Construct 1; Call 1 IncrementKeepCount; Construct 2; Assign 2 1]).
  vm_compute. reflexivity.
Defined.

(** ** Order and repetition of calls *)

Lemma call_comm (m1 m2 : method) (s : ReferencedState) :
  m1 ≠ ClearIfCompute → m2 ≠ ClearIfCompute →
  call m1 (call m2 s) = call m2 (call m1 s).
Proof.
  intros H1 H2.
  destruct m1 as [[]| | | | | | | | | | | |], m2 as [[]| | | | | | | | | | | |];
    try done; open_record s; cbn; try reflexivity; by destruct cp.
Qed.

Lemma call_idemp (m : method) (s : ReferencedState) :
  m ≠ IncrementKeepCount → call m (call m s) = call m s.
Proof.
  intros Hm. destruct m as [[]| | | | | | | | | | | |]; try done;
    open_record s; unfold call, clear_if_compute; cbn;
    try reflexivity; by destruct cp.
Qed.

Lemma call_clear_if_compute_comm (m : method) (s : ReferencedState) :
  is_reference_method m = false →
  call m (clear_if_compute s) = clear_if_compute (call m s).
Proof.
  destruct m; try discriminate; intros _; open_record s;
    unfold call, clear_if_compute; cbn; by destruct cp.
Qed.

Lemma run_Permutation (ms ms' : list method) (s : ReferencedState) :
  ClearIfCompute ∉ ms → ms ≡ₚ ms' → run ms s = run ms' s.
Proof.
  intros Hno Hperm. revert s.
  induction Hperm as [|m l l' _ IH|m1 m2 l|l l' l'' Hp1 IH1 _ IH2]; intros s.
  - done.
  - cbn [run]. apply IH. by apply not_elem_of_cons in Hno as [_ ?].
  - cbn [run]. apply not_elem_of_cons in Hno as [? [? _]%not_elem_of_cons].
    by rewrite call_comm.
  - rewrite IH1 by done. apply IH2. by rewrite <- Hp1.
Qed.

(** X11. Mutator calls other than [clear_if_compute()] can be made in
    any order: two call sequences that are permutations of each other
    and contain no [clear_if_compute()] take a record to the same
    record.  [clear_if_compute()] itself commutes with every keep-rule
    call, but not with recording a reference. *)
Theorem calls_commute (ms ms' : list method) (s : ReferencedState) :
  (ClearIfCompute ∉ ms → ms ≡ₚ ms' → run ms s = run ms' s)
  ∧ (∀ m, is_reference_method m = false →
          call m (clear_if_compute s) = clear_if_compute (call m s))
  ∧ run [RefByType; ClearIfCompute] fresh ≠ run [ClearIfCompute; RefByType] fresh.
Proof.
  split_and!.
  - apply run_Permutation.
  - intros m. apply call_clear_if_compute_comm.
  - discriminate.
Qed.

Lemma calls_commute_witness :
  run [IncrementKeepCount; RefByString false; SetKeep; RefByType] fresh
  = run [RefByString false; IncrementKeepCount; SetKeep; RefByType] fresh.
Proof.
  destruct (calls_commute
              [IncrementKeepCount; RefByString false; SetKeep; RefByType]
              [RefByString false; IncrementKeepCount; SetKeep; RefByType]
              fresh) as (H & _).
  apply H.
  - rewrite !not_elem_of_cons. split_and!; try discriminate. apply not_elem_of_nil.
  - apply perm_swap.
Defined.

(** A call that is made again later changes nothing. *)
Lemma run_absorb (m : method) (ms : list method) (s : ReferencedState) :
  m ≠ IncrementKeepCount → ClearIfCompute ∉ m :: ms → m ∈ ms →
  run ms (call m s) = run ms s.
Proof.
  intros Hinc Hno Hin. revert s.
  induction ms as [|m' ms IH]; intros s; [by apply elem_of_nil in Hin|].
  apply not_elem_of_cons in Hno as [Hm [Hm' Hms]%not_elem_of_cons].
  cbn [run]. destruct (decide (m = m')) as [<-|Hne].
  - by rewrite call_idemp.
  - rewrite call_comm by done. apply IH.
    + by apply not_elem_of_cons.
    + apply elem_of_cons in Hin as [?|?]; done.
Qed.

Lemma run_remove_dups (ms : list method) (s : ReferencedState) :
  ClearIfCompute ∉ ms → IncrementKeepCount ∉ ms →
  run (remove_dups ms) s = run ms s.
Proof.
  revert s; induction ms as [|m ms IH]; intros s Hclr Hinc; [done|].
  apply not_elem_of_cons in Hinc as [Hm Hinc].
  pose proof Hclr as [_ Hclr']%not_elem_of_cons.
  cbn [remove_dups]. case_decide as Hin; cbn [run].
  - rewrite IH by done. symmetry. by apply run_absorb.
  - by apply IH.
Qed.

(** X12. Apart from the counter and [clear_if_compute()], only which
    calls are made matters, not how often or in which order: two call
    sequences without [clear_if_compute()] and
    [increment_keep_count()] that contain the same calls take a record
    to the same record. *)
Theorem same_calls_same_record (ms ms' : list method) (s : ReferencedState) :
  ClearIfCompute ∉ ms → IncrementKeepCount ∉ ms →
  (∀ m, m ∈ ms ↔ m ∈ ms') →
  run ms s = run ms' s.
Proof.
  intros Hclr Hinc Hsame.
  assert (ClearIfCompute ∉ ms') as Hclr' by by rewrite <- Hsame.
  assert (IncrementKeepCount ∉ ms') as Hinc' by by rewrite <- Hsame.
  rewrite <- (run_remove_dups ms), <- (run_remove_dups ms') by done.
  apply run_Permutation.
  - by rewrite elem_of_remove_dups.
  - apply NoDup_Permutation; [apply NoDup_remove_dups ..|].
    intros m. by rewrite !elem_of_remove_dups.
Qed.

Lemma same_calls_same_record_witness :
  run [RefByString true; SetKeep; RefByString true; RefByType; SetKeep] fresh
  = run [SetKeep; RefByType; RefByString true] fresh.
Proof.
  apply same_calls_same_record.
  - rewrite !not_elem_of_cons. split_and!; try discriminate. apply not_elem_of_nil.
  - rewrite !not_elem_of_cons. split_and!; try discriminate. apply not_elem_of_nil.
  - intros m. rewrite !elem_of_cons. tauto.
Defined.

(** ** What copy assignment changes *)

(** X13. Whenever [operator=] runs (both records exist), afterwards the
    target holds what the source held, the source and every other
    record of the store are as before, and assigning again changes
    nothing; this covers self-assignment, which leaves the whole store
    as it was. *)
Theorem operator_assign_effect (this other : addr) (σ σ' : store) :
  operator_assign this other σ = Some σ' →
  is_Some (σ !! other)
  ∧ σ' !! this = σ !! other
  ∧ σ' !! other = σ !! other
  ∧ (∀ a, a ≠ this → σ' !! a = σ !! a)
  ∧ (this = other → σ' = σ)
  ∧ operator_assign this other σ' = Some σ'.
Proof.
  unfold operator_assign.
  destruct (σ !! this) as [t|] eqn:Ht; [|done].
  destruct (σ !! other) as [o|] eqn:Ho; [|done]. cbn.
  case_decide as Hne; intros [= <-].
  - rewrite assign_members_other. split_and!.
    + done.
    + apply lookup_insert_eq.
    + by rewrite lookup_insert_ne.
    + intros a Ha. by rewrite lookup_insert_ne.
    + done.
    + rewrite lookup_insert_eq. cbn [mbind option_bind].
      rewrite lookup_insert_ne, Ho by done. cbn [mbind option_bind].
      by rewrite assign_members_other, insert_insert_eq.
  - assert (this = other) as -> by by destruct (decide (this = other)).
    split_and!; try done; try congruence.
    by rewrite Ho.
Qed.

Lemma operator_assign_effect_witness :
  (<[1%positive := set_keep fresh]> (<[2%positive := set_keep fresh]> ∅)
   : store) !! 1%positive
  = (<[1%positive := fresh]> (<[2%positive := set_keep fresh]> ∅)
     : store) !! 2%positive.
Proof.
  destruct (operator_assign_effect 1 2
              (<[1%positive := fresh]> (<[2%positive := set_keep fresh]> ∅))
              (<[1%positive := set_keep fresh]>
                 (<[2%positive := set_keep fresh]> ∅)))
    as (_ & H & _).
  - vm_compute. reflexivity.
  - exact H.
Defined.

(** ** The predicates after the keep rules alone *)

Lemma run_keep_rule_methods (ms : list method) (s : ReferencedState) :
  Forall (λ m, is_reference_method m = false) ms →
  reference_members (run ms s) = reference_members s.
Proof.
  intros Hms. revert s.
  induction Hms as [|m ms Hm _ IH]; intros s; cbn [run]; [done|].
  by rewrite IH, call_keep_rule_method.
Qed.

Lemma bool_decide_false_orb (P : Prop) `{Decision P} :
  (false || bool_decide P) = false ↔ ¬ P.
Proof. cbn. apply bool_decide_eq_false. Qed.

(** X14. On a fresh record that only the keep rules have touched (no
    reference recorded), [can_delete()] is true exactly when
    [set_keep()] was not called or shrinking is allowed (set called,
    unset not called); [can_rename()] is true exactly when
    [set_keep_name()] was not called, [set_keep()] was not called or
    obfuscation is allowed, and shrinking is not allowed. *)
Theorem predicates_after_keep_rules (ms : list method) :
  Forall (λ m, is_reference_method m = false) ms →
  (can_delete (run ms fresh) = true ↔
     SetKeep ∉ ms ∨ (SetAllowshrinking ∈ ms ∧ UnsetAllowshrinking ∉ ms))
  ∧ (can_rename (run ms fresh) = true ↔
       (SetKeepName ∉ ms)
       ∧ (SetKeep ∉ ms
          ∨ (SetAllowobfuscation ∈ ms ∧ UnsetAllowobfuscation ∉ ms))
       ∧ ¬ (SetAllowshrinking ∈ ms ∧ UnsetAllowshrinking ∉ ms)).
Proof.
  intros Hms.
  pose proof (run_keep_rule_methods ms fresh Hms) as Href.
  unfold reference_members in Href; cbn in Href.
  injection Href as Ht Hb _.
  unfold can_delete, can_rename. rewrite Ht, Hb. cbn [negb andb].
  rewrite andb_true_r, !andb_true_iff, !orb_true_iff, !negb_true_iff.
  rewrite allowshrinking_run_fresh, allowobfuscation_run_fresh.
  rewrite run_m_keep, run_m_keep_name. cbn [fresh m_keep m_keep_name].
  rewrite !bool_decide_false_orb.
  rewrite <- not_true_iff_false, allowshrinking_run_fresh. tauto.
Qed.

Lemma predicates_after_keep_rules_witness :
  can_delete (run [SetKeep; SetAllowshrinking; IncrementKeepCount] fresh) = true
  ∧ can_rename (run [SetKeep; SetAllowobfuscation] fresh) = true.
Proof.
  split.
  - apply predicates_after_keep_rules; [repeat constructor|].
    right. split.
    + rewrite !elem_of_cons. tauto.
    + rewrite !not_elem_of_cons. split_and!; try discriminate.
      apply not_elem_of_nil.
  - apply predicates_after_keep_rules; [repeat constructor|].
    split_and!.
    + rewrite !not_elem_of_cons. split_and!; try discriminate.
      apply not_elem_of_nil.
    + right. split.
      * rewrite !elem_of_cons. tauto.
      * rewrite !not_elem_of_cons. split_and!; try discriminate.
        apply not_elem_of_nil.
    + intros [Hin _]. rewrite !elem_of_cons, elem_of_nil in Hin.
      destruct Hin as [?|[?|?]]; done.
Defined.

(** ** A new generation of the analysis *)

Lemma call_reference_members (m : method) (s s' : ReferencedState) :
  reference_members s = reference_members s' →
  reference_members (call m s) = reference_members (call m s').
Proof.
  unfold reference_members. intros Heq.
  destruct m, s, s'; cbn in Heq; simplify_eq;
    unfold call, clear_if_compute; cbn; repeat case_match; done.
Qed.

Lemma run_reference_members (ms : list method) (s s' : ReferencedState) :
  reference_members s = reference_members s' →
  reference_members (run ms s) = reference_members (run ms s').
Proof.
  revert s s'; induction ms as [|m ms IH]; intros s s' Heq; cbn [run]; [done|].
  by apply IH, call_reference_members.
Qed.

(** X15. After [clear_if_compute()] on a record whose [m_computed] is
    true, the old references are forgotten: whatever calls follow, the
    three reference members, and with them
    [is_referenced_by_type()] and [is_referenced_by_string()], are
    those a fresh record has after the same calls.  On a record whose
    [m_computed] is false the calls after [clear_if_compute()] act on
    the record as it was. *)
Theorem recompute_forgets_old_references (ms : list method) (s : ReferencedState) :
  (m_computed s = true →
   reference_members (run ms (clear_if_compute s))
   = reference_members (run ms fresh)
   ∧ is_referenced_by_type (run ms (clear_if_compute s))
     = is_referenced_by_type (run ms fresh)
   ∧ is_referenced_by_string (run ms (clear_if_compute s))
     = is_referenced_by_string (run ms fresh))
  ∧ (m_computed s = false →
     run ms (clear_if_compute s) = run ms s).
Proof.
  split.
  - intros Hs.
    assert (reference_members (run ms (clear_if_compute s))
            = reference_members (run ms fresh)) as Heq.
    { apply run_reference_members. open_record s; cbn in Hs; by subst. }
    split; [done|]. unfold reference_members in Heq.
    unfold is_referenced_by_type, is_referenced_by_string.
    injection Heq; intros; split; congruence.
  - intros Hs. unfold clear_if_compute. by rewrite Hs.
Qed.

Lemma recompute_forgets_old_references_witness :
  reference_members
    (run [RefByType; SetKeepName]
         (clear_if_compute (ref_by_string true (set_keep fresh))))
  = reference_members (run [RefByType; SetKeepName] fresh).
Proof.
  destruct (recompute_forgets_old_references [RefByType; SetKeepName]
              (ref_by_string true (set_keep fresh))) as (H & _).
  apply H. reflexivity.
Defined.
